(** * A shallow embedding of xonsh's completer ([xonsh/completer.py]) and of
    the error and location handling of its parser ([xonsh/parser.py]). *)

From Stdlib Require Import NArith ZArith List String Ascii Bool Lia Sorted Permutation.
Import ListNotations.
Open Scope string_scope.
Open Scope Z_scope.
Open Scope list_scope.
Set Warnings "-register-all".

(** ** Python values and exceptions *)

(** The Python values a completion provider can hand back: [None], integers,
    strings (ASCII), lists, tuples and sets.  A set is a list of its members,
    without duplicates (see [py_wf]); its iteration order is immaterial to the
    code below, which only sorts or measures it. *)
Inductive pyval : Type :=
| VNone
| VInt (z : Z)
| VStr (s : string)
| VList (l : list pyval)
| VTuple (l : list pyval)
| VSet (l : list pyval).

(** The exceptions that matter here; [OtherExc] stands for any other class. *)
Inductive exn : Type :=
| StopIteration
| TypeError
| ValueError
| NameError (name : string)
| AttributeError (name : string)
| UnboundLocalError (name : string)
| SyntaxError (text : string)
| OtherExc (cls : string).

(** Python evaluation: a value or a raised exception. *)
Inductive res (A : Type) : Type :=
| Ok (a : A)
| Exc (e : exn).
Arguments Ok {A} a.
Arguments Exc {A} e.

Definition bind {A B} (m : res A) (k : A -> res B) : res B :=
  match m with Ok a => k a | Exc e => Exc e end.

Notation "x <- m ;; k" := (bind m (fun x => k))
  (at level 61, m at next level, right associativity).

(** [==] on values. *)
Fixpoint py_eqb (a b : pyval) {struct a} : bool :=
  match a, b with
  | VNone, VNone => true
  | VInt x, VInt y => Z.eqb x y
  | VStr x, VStr y => String.eqb x y
  | VList xs, VList ys | VTuple xs, VTuple ys =>
      (fix seq_eqb (xs ys : list pyval) : bool :=
         match xs, ys with
         | [], [] => true
         | x :: xs', y :: ys' => py_eqb x y && seq_eqb xs' ys'
         | _, _ => false
         end) xs ys
  | VSet xs, VSet ys =>
      (fix subset (xs : list pyval) : bool :=
         match xs with
         | [] => true
         | x :: xs' => existsb (py_eqb x) ys && subset xs'
         end) xs
      && forallb (fun y => existsb (fun x => py_eqb x y) xs) ys
  | _, _ => false
  end.

Definition set_subset (xs ys : list pyval) : bool :=
  forallb (fun x => existsb (py_eqb x) ys) xs.

(** [<] on values: numbers and strings by value, lists and tuples
    lexicographically, sets by proper inclusion; anything else raises
    TypeError (None, and values of different types). *)
Fixpoint py_lt (a b : pyval) {struct a} : res bool :=
  match a, b with
  | VInt x, VInt y => Ok (Z.ltb x y)
  | VStr x, VStr y => Ok (String.ltb x y)
  | VList xs, VList ys | VTuple xs, VTuple ys =>
      (fix seq_lt (xs ys : list pyval) : res bool :=
         match xs, ys with
         | [], [] => Ok false
         | [], _ :: _ => Ok true
         | _ :: _, [] => Ok false
         | x :: xs', y :: ys' => if py_eqb x y then seq_lt xs' ys' else py_lt x y
         end) xs ys
  | VSet xs, VSet ys => Ok (set_subset xs ys && negb (set_subset ys xs))
  | _, _ => Exc TypeError
  end.

(** A set holds no two equal members. *)
Fixpoint no_dup_py (l : list pyval) : bool :=
  match l with
  | [] => true
  | x :: l' => negb (existsb (py_eqb x) l') && no_dup_py l'
  end.

Fixpoint py_wf (v : pyval) : bool :=
  match v with
  | VList l | VTuple l => forallb py_wf l
  | VSet l => no_dup_py l && forallb py_wf l
  | _ => true
  end.

(** [isinstance(v, collections.abc.Sequence)]. *)
Definition is_sequence (v : pyval) : bool :=
  match v with
  | VStr _ | VList _ | VTuple _ => true
  | _ => false
  end.

Fixpoint str_chars (s : string) : list pyval :=
  match s with
  | EmptyString => []
  | String c s' => VStr (String c EmptyString) :: str_chars s'
  end.

(** [iter(v)] materialised as a list. *)
Definition py_iter (v : pyval) : res (list pyval) :=
  match v with
  | VStr s => Ok (str_chars s)
  | VList l | VTuple l | VSet l => Ok l
  | _ => Exc TypeError
  end.

(** [len(v)]. *)
Definition py_len (v : pyval) : res Z :=
  match v with
  | VStr s => Ok (Z.of_nat (String.length s))
  | VList l | VTuple l | VSet l => Ok (Z.of_nat (List.length l))
  | _ => Exc TypeError
  end.

(** [a, b = v]: exactly two items, else ValueError. *)
Definition unpack2 (v : pyval) : res (pyval * pyval) :=
  l <- py_iter v ;;
  match l with
  | [a; b] => Ok (a, b)
  | _ => Exc ValueError
  end.

(** [sorted(v)]: Python's sort is stable and only uses [<].  Items are
    inserted in iteration order, each one after every earlier item it is not
    smaller than; this gives Python's result whenever [<] is a strict weak
    order on the items, and raises TypeError on incomparable items. *)
Fixpoint sort_insert (x : pyval) (l : list pyval) : res (list pyval) :=
  match l with
  | [] => Ok [x]
  | y :: l' =>
      lt <- py_lt x y ;;
      if lt then Ok (x :: y :: l')
      else (r <- sort_insert x l' ;; Ok (y :: r))
  end.

Fixpoint sort_acc (acc : list pyval) (l : list pyval) : res (list pyval) :=
  match l with
  | [] => Ok acc
  | x :: l' => acc' <- sort_insert x acc ;; sort_acc acc' l'
  end.

Definition py_sorted (v : pyval) : res (list pyval) :=
  l <- py_iter v ;; sort_acc [] l.

(** ** [Completer.complete] ([xonsh/completer.py]) *)

(** [len(prefix)]. *)
Definition pylen (s : string) : Z := Z.of_nat (String.length s).

(** A completion provider, called as [func(prefix, line, begidx, endidx, ctx)];
    the context is the collection of names in scope. *)
Definition provider : Type := string -> string -> Z -> Z -> list string -> res pyval.

(** A provider that returns (or raises) the same on every call. *)
Definition const_provider (r : res pyval) : provider := fun _ _ _ _ _ => r.

(** [builtins.__xonsh_completers__]: an insertion-ordered dict from provider
    name to provider; [complete] iterates its [.values()]. *)
Definition registry : Type := list (string * provider).

(** [ctx = ctx or {}]: a missing context, like an empty one, becomes the
    empty dict. *)
Definition ctx_or (ctx : option (list string)) : list string :=
  match ctx with Some names => names | None => [] end.

(** Lines 44-48: a [Sequence] is unpacked as [res, lprefix]; anything else
    is the candidates themselves, with [lprefix = len(prefix)]. *)
Definition interpret (prefix : string) (out : pyval) : res (pyval * pyval) :=
  if is_sequence out then unpack2 out else Ok (out, VInt (pylen prefix)).

(** Line 49: [res is not None and len(res) != 0]. *)
Definition nonempty (r : pyval) : res bool :=
  match r with
  | VNone => Ok false
  | _ => n <- py_len r ;; Ok (negb (Z.eqb n 0))
  end.

(** The [for] loop of [complete].  [lprefix] is [None] while the local
    variable is unbound.  Next to the outcome (a return value or a raised
    exception), the loop reports the names of the providers it invoked,
    in order. *)
Fixpoint complete_loop (prefix line : string) (begidx endidx : Z)
    (ctx : list string) (funcs : registry) (lprefix : option pyval)
    : res (pyval * pyval) * list string :=
  match funcs with
  | [] =>
      (match lprefix with
       | Some lp => Ok (VSet [], lp)
       | None => Exc (UnboundLocalError "lprefix")
       end, [])
  | (name, func) :: rest =>
      match func prefix line begidx endidx ctx with
      | Exc StopIteration => (Ok (VSet [], VInt (pylen prefix)), [name])
      | Exc e => (Exc e, [name])
      | Ok out =>
          match interpret prefix out with
          | Exc e => (Exc e, [name])
          | Ok (r, lp) =>
              match nonempty r with
              | Exc e => (Exc e, [name])
              | Ok true => (l <- py_sorted r ;; Ok (VTuple l, lp), [name])
              | Ok false =>
                  let '(o, log) :=
                    complete_loop prefix line begidx endidx ctx rest (Some lp) in
                  (o, name :: log)
              end
          end
      end
  end.

(** [Completer.complete(prefix, line, begidx, endidx, ctx=None)], reading
    the providers from [completers]. *)
Definition complete (completers : registry) (prefix line : string)
    (begidx endidx : Z) (ctx : option (list string))
    : res (pyval * pyval) * list string :=
  complete_loop prefix line begidx endidx (ctx_or ctx) completers None.

(** *** Vocabulary for stating the completer's properties *)

(** A provider whose call returns normally with an empty or absent candidate
    collection; the result is the [lprefix] the loop then holds. *)
Definition yields_empty (prefix line : string) (begidx endidx : Z)
    (ctx : list string) (func : provider) : option pyval :=
  match func prefix line begidx endidx ctx with
  | Ok out =>
      match interpret prefix out with
      | Ok (r, lp) => match nonempty r with Ok false => Some lp | _ => None end
      | Exc _ => None
      end
  | Exc _ => None
  end.

(** Running providers that all yield empty results: [Some lprefix] after
    them, or [None] as soon as one does something else. *)
Fixpoint run_empty (prefix line : string) (begidx endidx : Z)
    (ctx : list string) (funcs : registry) (lprefix : option pyval)
    : option (option pyval) :=
  match funcs with
  | [] => Some lprefix
  | (_, func) :: rest =>
      match yields_empty prefix line begidx endidx ctx func with
      | Some lp => run_empty prefix line begidx endidx ctx rest (Some lp)
      | None => None
      end
  end.

Definition is_str (v : pyval) : bool :=
  match v with VStr _ => true | _ => false end.

(** Sortedness of strings, as Python's [<=]. *)
Definition str_le (a b : pyval) : Prop :=
  match a, b with
  | VStr x, VStr y => String.leb x y = true
  | _, _ => False
  end.

(** Well-formed provider results: a candidate collection is [None] or a
    list, tuple or set of strings; a provider returns [None], a set of
    strings, or a two-item list or tuple whose first item is a candidate
    collection, or raises StopIteration. *)
Definition good_cands (c : pyval) : bool :=
  match c with
  | VNone => true
  | VList l | VTuple l | VSet l => forallb is_str l
  | _ => false
  end.

Definition good_out (out : pyval) : bool :=
  match out with
  | VNone => true
  | VSet l => forallb is_str l
  | VList [c; _] | VTuple [c; _] => good_cands c
  | _ => false
  end.

Definition good_call (r : res pyval) : bool :=
  match r with
  | Ok out => good_out out
  | Exc StopIteration => true
  | Exc _ => false
  end.

(** Reading a provider's return value raises [e] (lines 44-50): unpacking
    it, [len] of the candidates, or [sorted] of them. *)
Definition read_error (prefix : string) (out : pyval) (e : exn) : Prop :=
  interpret prefix out = Exc e \/
  exists r lp, interpret prefix out = Ok (r, lp) /\
    (nonempty r = Exc e \/ (nonempty r = Ok true /\ py_sorted r = Exc e)).

(** ** The parser's locations and diagnostics ([xonsh/parser.py]) *)

(** Decimal digits of a natural number, as [str] writes them. *)
Fixpoint n_digits (fuel : nat) (n : N) (acc : string) : string :=
  match fuel with
  | O => acc
  | S fuel' =>
      let acc' := String (Ascii.ascii_of_N (48 + N.modulo n 10)) acc in
      if N.eqb (N.div n 10) 0 then acc' else n_digits fuel' (N.div n 10) acc'
  end.

(** [str(z)] for an integer. *)
Definition z_str (z : Z) : string :=
  let n := Z.to_N (Z.abs z) in
  let ds := n_digits (S (N.size_nat n)) n EmptyString in
  if Z.ltb z 0 then String.append "-" ds else ds.

(** [repr] and [str] of values; strings are assumed to hold no quote or
    backslash, which [repr] would escape. *)
Fixpoint py_repr (v : pyval) : string :=
  let fix items (l : list pyval) : string :=
    match l with
    | [] => EmptyString
    | [x] => py_repr x
    | x :: l' => String.append (py_repr x) (String.append ", " (items l'))
    end in
  match v with
  | VNone => "None"
  | VInt z => z_str z
  | VStr s => String.append "'" (String.append s "'")
  | VList l => String.append "[" (String.append (items l) "]")
  | VTuple [x] => String.append "(" (String.append (py_repr x) ",)")
  | VTuple l => String.append "(" (String.append (items l) ")")
  | VSet [] => "set()"
  | VSet l => String.append "{" (String.append (items l) "}")
  end.

Definition py_str (v : pyval) : string :=
  match v with VStr s => s | _ => py_repr v end.

(** The attributes a [Location] is meant to carry. *)
Record Location : Type := mkLocation {
  fname : string;
  lineno : Z;
  column : option Z
}.

(** [Location.__str__]. *)
Definition Location_str (loc : Location) : string :=
  let s := String.append (fname loc) (String.append ":" (z_str (lineno loc))) in
  match column loc with
  | Some c => String.append s (String.append ":" (z_str c))
  | None => s
  end.

(** The names bound where the body of [Location.__init__] runs: its
    parameters, then the globals of [xonsh/parser.py]; the builtins module
    binds none of [fname], [line] and [column]. *)
Definition Location_init_scope : list string :=
  ["self"; "fname"; "lineno"; "column";
   "print_function"; "unicode_literals"; "re"; "yacc"; "ast"; "Lexer";
   "Location"; "Parser"].

(** Reading a name: NameError when it is not bound. *)
Definition load_name (scope : list string) (name : string) : res unit :=
  if existsb (String.eqb name) scope then Ok tt else Exc (NameError name).

(** [Location(fname, lineno, column=None)]: the body assigns
    [self.fname = fname], [self.lineno = line], [self.column = column]. *)
Definition Location_init (fname : string) (lineno : Z) (column : option Z)
    : res Location :=
  _ <- load_name Location_init_scope "fname" ;;
  _ <- load_name Location_init_scope "line" ;;
  _ <- load_name Location_init_scope "column" ;;
  Ok (mkLocation fname lineno column).

(** A token as ply hands it to [p_error]. *)
Record token : Type := mkToken {
  tok_value : string;
  tok_lineno : Z
}.

(** The parts of the lexer ([xonsh.lexer.Lexer]) the error path reads: the
    attribute [fname] ([None] when the lexer has no such attribute) and the
    column [token_col] computes for a token. *)
Record lexer : Type := mkLexer {
  lexer_fname : option string;
  lexer_token_col : token -> Z
}.

(** [self.lexer.fname]. *)
Definition get_fname (lx : lexer) : res string :=
  match lexer_fname lx with
  | Some fn => Ok fn
  | None => Exc (AttributeError "fname")
  end.

(** [Parser.currloc(lineno, column=None)]. *)
Definition currloc (lx : lexer) (lineno : Z) (column : option Z) : res Location :=
  fn <- get_fname lx ;;
  Location_init fn lineno column.

(** The arguments of ['{0}: {1}'.format(loc, msg)]: a [Location] or a plain
    value. *)
Inductive fmt_arg : Type :=
| FLoc (loc : Location)
| FVal (v : pyval).

Definition fmt (a : fmt_arg) : string :=
  match a with FLoc loc => Location_str loc | FVal v => py_str v end.

(** [Parser._parse_error(msg, loc)]: always raises. *)
Definition _parse_error (msg loc : fmt_arg) : res unit :=
  Exc (SyntaxError (String.append (fmt loc) (String.append ": " (fmt msg)))).

(** [Parser._lexer_errfunc(msg, line, column)]. *)
Definition _lexer_errfunc (lx : lexer) (msg : string) (line column : Z) : res unit :=
  loc <- currloc lx line (Some column) ;;
  _parse_error (FVal (VStr msg)) (FLoc loc).

(** [Parser.p_error(p)]; [p] is [None] at the end of the input.  The
    trailing comma of [msg = 'code: {0}'.format(p.value),] makes [msg] a
    1-tuple. *)
Definition p_error (lx : lexer) (p : option token) : res unit :=
  match p with
  | Some tok =>
      let msg := FVal (VTuple [VStr (String.append "code: " (tok_value tok))]) in
      loc <- currloc lx (tok_lineno tok) (Some (lexer_token_col lx tok)) ;;
      _parse_error msg (FLoc loc)
  | None => _parse_error (FVal (VStr "no further code")) (FVal (VStr ""))
  end.

(** ** [Parser.parse] and the scope stack *)

(** The mutable state [parse] touches: the lexer's [filename] and [lineno],
    the lexer's last token (read by [_yacc_lookahead_token], never reset by
    [parse]), the scope stack (a list of dicts from name to "is a type"), and
    [_last_yielded_token]. *)
Record pstate : Type := mkPstate {
  lexer_filename : string;
  lexer_lineno : Z;
  lexer_last : option token;
  scope_stack : list (list (string * bool));
  last_yielded_token : option token
}.

(** A grammar engine's [parse(input=s, lexer=..., debug=...)]: it may use
    and change the state, and returns a tree or raises. *)
Definition engine : Type := pstate -> string -> Z -> pstate * res pyval.

(** A [Parser] object: its state, the engine [__init__] stores in
    [self.parser], and the attribute [cparser] that [parse] reads
    ([None] while unset; [__init__] does not set it). *)
Record Parser : Type := mkParser {
  pst : pstate;
  parser_engine : engine;
  cparser : option engine
}.

(** Lines 101-104 of [Parser.parse]. *)
Definition parse_reset (st : pstate) (filename : string) : pstate :=
  mkPstate filename 0 (lexer_last st) [[]] None.

(** [Parser.parse(s, filename='<code>', debug_level=0)]. *)
Definition parse (P : Parser) (s filename : string) (debug_level : Z)
    : Parser * res pyval :=
  let st := parse_reset (pst P) filename in
  match cparser P with
  | None => (mkParser st (parser_engine P) (cparser P), Exc (AttributeError "cparser"))
  | Some eng =>
      let '(st', tree) := eng st s debug_level in
      (mkParser st' (parser_engine P) (cparser P), tree)
  end.

(** The same object with another scope stack. *)
Definition with_scope_stack (P : Parser) (sc : list (list (string * bool))) : Parser :=
  let st := pst P in
  mkParser (mkPstate (lexer_filename st) (lexer_lineno st) (lexer_last st) sc
              (last_yielded_token st))
           (parser_engine P) (cparser P).

(** ** Operator precedence ([Parser.precedence]) *)

Inductive assoc : Type := Left | Right.

(** [Parser.precedence]: entries from the lowest to the highest
    precedence. *)
Definition precedence : list (assoc * list string) :=
  [(Left, ["LOGIC_OR"]);
   (Left, ["LOGIC_AND"]);
   (Left, ["PIPE"]);
   (Left, ["XOR"]);
   (Left, ["AMPERSAND"]);
   (Left, ["EQ"; "NE"]);
   (Left, ["GT"; "GE"; "LT"; "LE"]);
   (Left, ["RSHIFT"; "LSHIFT"]);
   (Left, ["PLUS"; "MINUS"]);
   (Left, ["TIMES"; "DIVIDE"; "MOD"]);
   (Left, ["POW"])].

(** Modelled from the spec: the Grammar Engine's reading of the precedence
    table (the engine is ply's yacc, outside the repository).  The entry at
    position [n] (from 1) gives its terminals level [n] and its
    associativity; a terminal in no entry has level 0. *)
Fixpoint prec_of_from (n : nat) (tbl : list (assoc * list string)) (t : string)
    : assoc * nat :=
  match tbl with
  | [] => (Right, O)
  | (a, ts) :: tbl' =>
      if existsb (String.eqb t) ts then (a, n) else prec_of_from (S n) tbl' t
  end.

Definition prec_of (t : string) : assoc * nat := prec_of_from 1 precedence t.

Definition level (t : string) : nat := snd (prec_of t).

(** Modelled from the spec: a shift/reduce conflict between reducing a
    binary rule whose operator is [rule_op] and shifting the lookahead
    operator [la] is a reduce when the rule's level is higher, or on a tie
    when the rule's entry is left-associative; otherwise a shift. *)
Definition resolve_reduce (rule_op la : string) : bool :=
  let '(ra, rl) := prec_of rule_op in
  let sl := level la in
  Nat.ltb sl rl || (Nat.eqb sl rl && match ra with Left => true | Right => false end).

(** Operator expressions over the binary productions [e : e OP e] for the
    operators of the table, and [e : ATOM]. *)
Inductive tok : Type :=
| TAtom (a : string)
| TOp (o : string).

Inductive tree : Type :=
| Leaf (a : string)
| Bin (o : string) (l r : tree).

(** Modelled from the spec: the engine's shift/reduce run on such token
    streams.  The stack holds the reduced left operands with their
    operators, topmost first; [cur] is the right operand. *)
Fixpoint reduce_while (la : string) (stk : list (tree * string)) (cur : tree)
    : list (tree * string) * tree :=
  match stk with
  | [] => ([], cur)
  | (l, o) :: stk' =>
      if resolve_reduce o la then reduce_while la stk' (Bin o l cur) else (stk, cur)
  end.

Fixpoint reduce_all (stk : list (tree * string)) (cur : tree) : tree :=
  match stk with
  | [] => cur
  | (l, o) :: stk' => reduce_all stk' (Bin o l cur)
  end.

Fixpoint shift_reduce (stk : list (tree * string)) (cur : tree) (rest : list tok)
    : option tree :=
  match rest with
  | [] => Some (reduce_all stk cur)
  | TOp o :: TAtom a :: rest' =>
      let '(stk', cur') := reduce_while o stk cur in
      shift_reduce ((cur', o) :: stk') (Leaf a) rest'
  | _ => None
  end.

Definition parse_operators (toks : list tok) : option tree :=
  match toks with
  | TAtom a :: rest => shift_reduce [] (Leaf a) rest
  | _ => None
  end.

Fixpoint flatten (t : tree) : list tok :=
  match t with
  | Leaf a => [TAtom a]
  | Bin o l r => flatten l ++ TOp o :: flatten r
  end.

Definition in_table (t : tok) : bool :=
  match t with TOp o => Nat.ltb 0 (level o) | TAtom _ => true end.

(** The operator at the root of an operand binds at least as tightly as
    [n] ([top_ge]) or strictly more tightly ([top_gt]); atoms bind
    tightest. *)
Definition top_ge (n : nat) (t : tree) : Prop :=
  match t with Leaf _ => True | Bin o _ _ => (n <= level o)%nat end.

Definition top_gt (n : nat) (t : tree) : Prop :=
  match t with Leaf _ => True | Bin o _ _ => (n < level o)%nat end.

(** Grouping by precedence and left associativity: below each operator,
    a left operand is rooted at an operator of the same or a higher level,
    a right operand at an operator of a strictly higher level. *)
Fixpoint prec_ok (t : tree) : Prop :=
  match t with
  | Leaf _ => True
  | Bin o l r => prec_ok l /\ prec_ok r /\ top_ge (level o) l /\ top_gt (level o) r
  end.


(** The shift/reduce stack's shape: operators strictly increasing in level
    towards the top, each left operand grouped as [prec_ok] requires. *)
Fixpoint stack_ok (stk : list (tree * string)) : Prop :=
  match stk with
  | [] => True
  | (l, o) :: rest =>
      prec_ok l /\ top_ge (level o) l /\ (0 < level o)%nat /\ stack_ok rest /\
      match rest with
      | [] => True
      | (_, o') :: _ => (level o' < level o)%nat /\ top_gt (level o') l
      end
  end.

Definition top_cond (stk : list (tree * string)) (cur : tree) : Prop :=
  match stk with [] => True | (_, o) :: _ => top_gt (level o) cur end.

(** The tokens the stack stands for, leftmost first. *)
Fixpoint stack_flat (stk : list (tree * string)) : list tok :=
  match stk with
  | [] => []
  | (l, o) :: rest => stack_flat rest ++ flatten l ++ [TOp o]
  end.

(** ** [Parser.__init__] *)

(** [Parser.__init__(...)]: the lexer ([Lexer(errfunc=...)], then [build])
    and the engine ([yacc.yacc(...)]) are built by code outside the
    repository's source files, so the lexer's initial [filename], [lineno]
    and [last] and the engine are parameters.  The method stores the engine
    in [self.parser], a scope stack [[dict()]] and no last yielded token;
    it sets no attribute [cparser]. *)
Definition Parser_init (filename : string) (lineno : Z) (last : option token)
    (eng : engine) : Parser :=
  mkParser (mkPstate filename lineno last [[]] None) eng None.

(** ** Reading back what [Location.__str__] writes *)

(** The value of a run of decimal digits, read left to right onto [a]. *)
Fixpoint dec_val (s : string) (a : N) : N :=
  match s with
  | EmptyString => a
  | String c s' => dec_val s' (a * 10 + (Ascii.N_of_ascii c - 48))
  end.

Fixpoint no_colon (s : string) : bool :=
  match s with
  | EmptyString => true
  | String c s' => negb (Ascii.eqb c ":") && no_colon s'
  end.

(** Integer values. *)
Definition is_int (v : pyval) : bool :=
  match v with VInt _ => true | _ => false end.

(** Candidates that are strings or integers. *)
Definition str_or_int (v : pyval) : bool := is_str v || is_int v.

(** A list whose items are all strings or all non-strings. *)
Definition uniform (l : list pyval) : Prop :=
  forall x y, In x l -> In y l -> is_str x = is_str y.

(** ** Lemmas on the Python primitives *)

Lemma str_ltb_false_leb (x y : string) :
  String.ltb x y = false -> String.leb y x = true.
Proof.
  unfold String.ltb, String.leb. rewrite (String.compare_antisym y x).
  destruct (String.compare x y); simpl; congruence.
Qed.

Lemma str_ltb_true_leb (x y : string) :
  String.ltb x y = true -> String.leb x y = true.
Proof.
  unfold String.ltb, String.leb. destruct (String.compare x y); congruence.
Qed.

Lemma sort_insert_str (x : pyval) (l : list pyval) :
  is_str x = true -> forallb is_str l = true ->
  exists l', sort_insert x l = Ok l' /\ Permutation l' (x :: l) /\
    forallb is_str l' = true /\
    (Sorted str_le l -> Sorted str_le l') /\
    (forall z, HdRel str_le z l -> str_le z x -> HdRel str_le z l').
Proof.
  intros Hx. induction l as [|y l IH]; intros Hl.
  - exists [x]. split; [reflexivity|]. split; [reflexivity|].
    split; [simpl; now rewrite Hx|]. split.
    + intros _. repeat constructor.
    + intros z _ Hz. now constructor.
  - simpl in Hl. apply andb_prop in Hl as [Hy Hl].
    destruct x as [| |sx| | |]; try discriminate.
    destruct y as [| |sy| | |]; try discriminate.
    simpl. destruct (String.ltb sx sy) eqn:Hlt.
    + exists (VStr sx :: VStr sy :: l).
      split; [reflexivity|]. split; [reflexivity|]. split; [exact Hl|]. split.
      * intros Hs. constructor; [exact Hs|]. constructor. simpl.
        now apply str_ltb_true_leb.
      * intros z _ Hz. now constructor.
    + destruct (IH Hl) as (r & Hr & Hp & Hrs & Hso & Hhd).
      rewrite Hr. simpl. exists (VStr sy :: r).
      split; [reflexivity|]. split; [rewrite Hp; apply perm_swap|].
      split; [exact Hrs|]. split.
      * intros Hs. apply Sorted_inv in Hs as [Hs Hh]. constructor; auto.
        apply Hhd; auto. simpl. now apply str_ltb_false_leb.
      * intros z Hz _. constructor. now apply HdRel_inv in Hz.
Qed.

Lemma sort_acc_str (items acc : list pyval) :
  forallb is_str acc = true -> forallb is_str items = true -> Sorted str_le acc ->
  exists l, sort_acc acc items = Ok l /\ Permutation l (items ++ acc) /\
    Sorted str_le l.
Proof.
  revert acc. induction items as [|x items IH]; intros acc Ha Hi Hs.
  - exists acc. repeat split; auto.
  - simpl in Hi. apply andb_prop in Hi as [Hx Hi].
    destruct (sort_insert_str x acc Hx Ha) as (a' & Ha' & Hp & Has & Hso & _).
    destruct (IH a' Has Hi (Hso Hs)) as (l & Hl & Hp' & Hls).
    exists l. simpl. rewrite Ha'. simpl. repeat split; auto.
    rewrite Hp', Hp. apply Permutation_sym, Permutation_middle.
Qed.

Lemma py_sorted_str (r : pyval) (items : list pyval) :
  py_iter r = Ok items -> forallb is_str items = true ->
  exists l, py_sorted r = Ok l /\ Permutation l items /\ Sorted str_le l.
Proof.
  intros Hit Hs. unfold py_sorted. rewrite Hit. simpl.
  destruct (sort_acc_str items [] eq_refl Hs (Sorted_nil _)) as (l & Hl & Hp & Hso).
  exists l. rewrite app_nil_r in Hp. auto.
Qed.

Lemma str_chars_length (s : string) :
  List.length (str_chars s) = String.length s.
Proof. induction s; simpl; auto. Qed.

Lemma nonempty_iter (r : pyval) (items : list pyval) :
  py_iter r = Ok items -> nonempty r = Ok (negb (Nat.eqb (List.length items) 0)).
Proof.
  intros H. destruct r; simpl in H; try discriminate; injection H as <-;
    simpl; try rewrite str_chars_length;
    match goal with |- context [Z.of_nat ?n =? 0] => destruct n; reflexivity end.
Qed.

(** ** Lemmas on the completion loop *)

Section Loop.
Variables (prefix line : string) (begidx endidx : Z) (ctx : list string).

Lemma complete_loop_app (pre rest : registry) (lp : option pyval) (lp' : option pyval) :
  run_empty prefix line begidx endidx ctx pre lp = Some lp' ->
  complete_loop prefix line begidx endidx ctx (pre ++ rest) lp =
    let '(o, log) := complete_loop prefix line begidx endidx ctx rest lp' in
    (o, map fst pre ++ log).
Proof.
  revert lp. induction pre as [|[name func] pre IH]; intros lp H.
  - simpl in H. injection H as <-. simpl.
    destruct (complete_loop _ _ _ _ _ rest lp); reflexivity.
  - simpl in H. unfold yields_empty in H. simpl.
    destruct (func prefix line begidx endidx ctx) as [out|ex]; [|discriminate].
    destruct (interpret prefix out) as [[r lp1]|ex]; [|discriminate].
    destruct (nonempty r) as [[|]|ex]; try discriminate.
    rewrite (IH _ H). destruct (complete_loop _ _ _ _ _ rest lp'); reflexivity.
Qed.

(** The provider after an all-empty prefix of the registry returns a
    non-empty collection of strings: the loop stops there. *)
Lemma complete_loop_nonempty_at (pre post : registry) (name : string)
    (func : provider) (lp0 : option pyval) (out r lp : pyval) (items : list pyval) :
  run_empty prefix line begidx endidx ctx pre None = Some lp0 ->
  func prefix line begidx endidx ctx = Ok out ->
  interpret prefix out = Ok (r, lp) ->
  py_iter r = Ok items -> items <> [] -> forallb is_str items = true ->
  exists l,
    complete_loop prefix line begidx endidx ctx (pre ++ (name, func) :: post) None =
      (Ok (VTuple l, lp), map fst pre ++ [name]) /\
    Permutation l items /\ Sorted str_le l.
Proof.
  intros Hpre Hf Hi Hit Hne Hs.
  destruct (py_sorted_str r items Hit Hs) as (l & Hl & Hp & Hso).
  exists l. split; auto.
  rewrite (complete_loop_app _ _ _ _ Hpre). simpl. rewrite Hf, Hi.
  rewrite (nonempty_iter r items Hit).
  destruct items as [|x items]; [congruence|]. simpl. rewrite Hl. reflexivity.
Qed.

(** An all-empty non-empty registry: the loop falls through with the
    [lprefix] of the last provider. *)
Lemma complete_loop_all_empty (funcs : registry) (lp : pyval) :
  run_empty prefix line begidx endidx ctx funcs None = Some (Some lp) ->
  complete_loop prefix line begidx endidx ctx funcs None =
    (Ok (VSet [], lp), map fst funcs).
Proof.
  intros H.
  replace (complete_loop prefix line begidx endidx ctx funcs None)
    with (complete_loop prefix line begidx endidx ctx (funcs ++ []) None)
    by now rewrite app_nil_r.
  rewrite (complete_loop_app _ [] _ _ H). simpl. rewrite app_nil_r. reflexivity.
Qed.

End Loop.

(** ** Lemmas on operator precedence *)

Lemma prec_of_from_left (tbl : list (assoc * list string)) (n : nat) (t : string) :
  Forall (fun e => fst e = Left) tbl ->
  snd (prec_of_from n tbl t) <> O -> fst (prec_of_from n tbl t) = Left.
Proof.
  revert n. induction tbl as [|[a ts] tbl IH]; intros n Hall Hn; simpl in *.
  - contradiction.
  - inversion Hall as [|? ? Ha Hall']; subst. simpl in Ha.
    destruct (existsb (String.eqb t) ts); simpl; auto.
Qed.

Lemma prec_of_left (o : string) :
  level o <> O -> fst (prec_of o) = Left.
Proof.
  apply prec_of_from_left. repeat constructor.
Qed.

Lemma resolve_reduce_level (o la : string) :
  level o <> O -> resolve_reduce o la = Nat.leb (level la) (level o).
Proof.
  intros H. pose proof (prec_of_left o H) as HL. unfold resolve_reduce, level in *.
  destruct (prec_of o) as [ra rl]. simpl in *. subst ra.
  destruct (Nat.ltb (snd (prec_of la)) rl) eqn:Hlt;
    destruct (Nat.eqb (snd (prec_of la)) rl) eqn:Heq;
    destruct (Nat.leb (snd (prec_of la)) rl) eqn:Hle; simpl; auto;
    apply Nat.ltb_lt in Hlt || apply Nat.ltb_ge in Hlt;
    apply Nat.eqb_eq in Heq || apply Nat.eqb_neq in Heq;
    apply Nat.leb_le in Hle || apply Nat.leb_gt in Hle; lia.
Qed.

Lemma reduce_while_ok (la : string) (stk : list (tree * string)) (cur : tree) :
  (0 < level la)%nat -> stack_ok stk -> prec_ok cur -> top_cond stk cur ->
  let '(stk', cur') := reduce_while la stk cur in
  stack_ok stk' /\ prec_ok cur' /\ top_cond stk' cur' /\
  match stk' with [] => True | (_, o) :: _ => (level o < level la)%nat end /\
  (cur' = cur \/ top_ge (level la) cur') /\
  stack_flat stk' ++ flatten cur' = stack_flat stk ++ flatten cur.
Proof.
  revert cur. induction stk as [|[l o] rest IH]; intros cur Hla Hs Hc Ht.
  - simpl. auto 10.
  - simpl in Hs. destruct Hs as (Hl & Hlo & Ho & Hrest & Hord).
    simpl. rewrite resolve_reduce_level by lia.
    destruct (Nat.leb (level la) (level o)) eqn:Hle.
    + apply Nat.leb_le in Hle.
      assert (Hc' : prec_ok (Bin o l cur)) by (simpl; auto).
      assert (Ht' : top_cond rest (Bin o l cur)).
      { destruct rest as [|[l' o'] rest']; simpl; [exact I|]. simpl in Hord. lia. }
      specialize (IH (Bin o l cur) Hla Hrest Hc' Ht').
      destruct (reduce_while la rest (Bin o l cur)) as [stk' cur'].
      destruct IH as (H1 & H2 & H3 & H4 & H5 & H6).
      repeat split; auto.
      * destruct H5 as [-> | H5]; right; simpl; auto.
      * rewrite H6. simpl. repeat rewrite <- app_assoc. reflexivity.
    + apply Nat.leb_gt in Hle. simpl. repeat split; auto.
Qed.

Lemma reduce_all_ok (stk : list (tree * string)) (cur : tree) :
  stack_ok stk -> prec_ok cur -> top_cond stk cur ->
  prec_ok (reduce_all stk cur) /\
  flatten (reduce_all stk cur) = stack_flat stk ++ flatten cur.
Proof.
  revert cur. induction stk as [|[l o] rest IH]; intros cur Hs Hc Ht.
  - simpl. auto.
  - simpl in Hs. destruct Hs as (Hl & Hlo & Ho & Hrest & Hord). simpl.
    assert (Hc' : prec_ok (Bin o l cur)) by (simpl; auto).
    assert (Ht' : top_cond rest (Bin o l cur)).
    { destruct rest as [|[l' o'] rest']; simpl; [exact I|]. simpl in Hord. lia. }
    destruct (IH (Bin o l cur) Hrest Hc' Ht') as [H1 H2]. split; auto.
    rewrite H2. simpl. repeat rewrite <- app_assoc. reflexivity.
Qed.

Lemma shift_reduce_ok (n : nat) (rest : list tok) (stk : list (tree * string))
    (a : string) (t : tree) :
  (List.length rest <= n)%nat -> forallb in_table rest = true -> stack_ok stk ->
  shift_reduce stk (Leaf a) rest = Some t ->
  prec_ok t /\ flatten t = stack_flat stk ++ TAtom a :: rest.
Proof.
  revert rest stk a t. induction n as [|n IH]; intros rest stk a t Hlen Hin Hs Hsr.
  - destruct rest; [|simpl in Hlen; lia]. simpl in Hsr. injection Hsr as <-.
    apply (reduce_all_ok stk (Leaf a) Hs I). destruct stk as [|[]]; exact I.
  - destruct rest as [|[a0|o] rest].
    + simpl in Hsr. injection Hsr as <-.
      apply (reduce_all_ok stk (Leaf a) Hs I). destruct stk as [|[]]; exact I.
    + discriminate.
    + destruct rest as [|[a'|o'] rest']; try discriminate.
      simpl in Hin. apply andb_prop in Hin as [Ho Hin].
      apply Nat.ltb_lt in Ho.
      simpl in Hsr.
      assert (Htc : top_cond stk (Leaf a)) by (destruct stk as [|[]]; exact I).
      pose proof (reduce_while_ok o stk (Leaf a) Ho Hs I Htc) as Hr.
      destruct (reduce_while o stk (Leaf a)) as [stk' cur'].
      destruct Hr as (H1 & H2 & H3 & H4 & H5 & H6).
      assert (Hs' : stack_ok ((cur', o) :: stk')).
      { simpl. split; [exact H2|]. split; [destruct H5 as [-> | H5]; simpl; auto|].
        split; [exact Ho|]. split; [exact H1|].
        destruct stk' as [|[l'' o''] stk'']; [exact I|]. simpl in H3, H4. split; auto. }
      simpl in Hin.
      destruct (IH rest' ((cur', o) :: stk') a' t) as [Hp Hf]; auto.
      { simpl in Hlen. lia. }
      split; auto. rewrite Hf. simpl.
      rewrite <- (app_assoc (stack_flat stk')), <- app_assoc, (app_assoc (stack_flat stk')), H6.
      repeat rewrite <- app_assoc. reflexivity.
Qed.

(** ** Lemmas on well-formed provider results *)

Lemma good_cands_cases (c : pyval) :
  good_cands c = true ->
  c = VNone \/ exists l, py_iter c = Ok l /\ forallb is_str l = true.
Proof.
  destruct c; simpl; try discriminate; intros H; auto; right; eauto.
Qed.

Lemma good_out_interpret (prefix : string) (out : pyval) :
  good_out out = true ->
  exists r lp, interpret prefix out = Ok (r, lp) /\ good_cands r = true.
Proof.
  destruct out as [| | |l|l|l]; simpl; try discriminate; intros H.
  - exists VNone, (VInt (pylen prefix)). auto.
  - destruct l as [|c [|x [|]]]; try discriminate. exists c, x. auto.
  - destruct l as [|c [|x [|]]]; try discriminate. exists c, x. auto.
  - exists (VSet l), (VInt (pylen prefix)). auto.
Qed.

Lemma complete_loop_good (prefix line : string) (begidx endidx : Z)
    (ctx : list string) (funcs : registry) (lp : option pyval) :
  Forall (fun p => good_call (snd p prefix line begidx endidx ctx) = true)
    (firstn (List.length (snd (complete_loop prefix line begidx endidx ctx funcs lp)))
       funcs) ->
  (funcs <> [] \/ lp <> None) ->
  exists r, fst (complete_loop prefix line begidx endidx ctx funcs lp) = Ok r.
Proof.
  revert lp. induction funcs as [|[name func] rest IH]; intros lp Hall Hne.
  - destruct Hne as [Hne|Hne]; [congruence|].
    destruct lp as [lp|]; [|congruence]. simpl. eauto.
  - simpl in Hall |- *.
    destruct (func prefix line begidx endidx ctx) as [out|ex] eqn:Hf.
    2: { destruct ex; simpl in Hall; apply Forall_inv in Hall; simpl in Hall;
         rewrite Hf in Hall; try discriminate; simpl; eauto. }
    assert (Hg : good_out out = true).
    { destruct (interpret prefix out) as [[r lp1]|e];
        [destruct (nonempty r) as [[|]|e];
           [| destruct (complete_loop prefix line begidx endidx ctx rest (Some lp1)) |] |];
        simpl in Hall; apply Forall_inv in Hall; simpl in Hall; rewrite Hf in Hall;
        exact Hall. }
    destruct (good_out_interpret prefix out Hg) as (r & lp1 & Hi & Hgc).
    rewrite Hi in Hall |- *.
    assert (Hnext : nonempty r = Ok false ->
              exists r0, fst (let '(o, log) :=
                 complete_loop prefix line begidx endidx ctx rest (Some lp1) in
               (o, name :: log)) = Ok r0).
    { intros Hn. rewrite Hn in Hall.
      destruct (complete_loop prefix line begidx endidx ctx rest (Some lp1))
        as [o log] eqn:Hc.
      simpl in Hall. apply Forall_inv_tail in Hall.
      destruct (IH (Some lp1)) as [r0 Hr0];
        [rewrite Hc; exact Hall | right; discriminate |].
      rewrite Hc in Hr0. simpl. eauto. }
    destruct (good_cands_cases r Hgc) as [-> | (items & Hit & Hs)].
    + apply Hnext. reflexivity.
    + pose proof (nonempty_iter r items Hit) as Hn.
      destruct items as [|x items]; [rewrite Hn; apply Hnext; rewrite Hn; reflexivity|].
      rewrite Hn. simpl.
      destruct (py_sorted_str r (x :: items) Hit Hs) as (l & Hl & _).
      rewrite Hl. simpl. eauto.
Qed.

Lemma py_lt_exc : forall (a b : pyval) (e : exn), py_lt a b = Exc e -> e = TypeError.
Proof.
  fix IH 1.
  intros [| x | x | xs | xs | xs] [| y | y | ys | ys | ys] e H; simpl in H;
    try discriminate; try (injection H as <-; reflexivity).
  - revert xs ys H. fix IHl 1.
    intros [|x xs] [|y ys] H; try discriminate.
    destruct (py_eqb x y); [exact (IHl xs ys H) | exact (IH x y e H)].
  - revert xs ys H. fix IHl 1.
    intros [|x xs] [|y ys] H; try discriminate.
    destruct (py_eqb x y); [exact (IHl xs ys H) | exact (IH x y e H)].
Qed.

Lemma sort_insert_exc_any (x : pyval) (l : list pyval) (e : exn) :
  sort_insert x l = Exc e -> e = TypeError.
Proof.
  induction l as [|y l IH]; intros H; simpl in H; try discriminate.
  destruct (py_lt x y) as [[|]|e'] eqn:Hlt; simpl in H; try discriminate.
  - destruct (sort_insert x l); simpl in H; [discriminate|]. injection H as <-. auto.
  - injection H as <-. exact (py_lt_exc _ _ _ Hlt).
Qed.

Lemma sort_acc_exc_any (acc l : list pyval) (e : exn) :
  sort_acc acc l = Exc e -> e = TypeError.
Proof.
  revert acc. induction l as [|x l IH]; intros acc H; simpl in H; try discriminate.
  destruct (sort_insert x acc) as [acc'|e'] eqn:Hi; simpl in H.
  - exact (IH _ H).
  - injection H as <-. exact (sort_insert_exc_any _ _ _ Hi).
Qed.

Lemma read_error_kind (prefix : string) (out : pyval) (e : exn) :
  read_error prefix out e -> e = TypeError \/ e = ValueError.
Proof.
  intros [Hi | (r & lp & Hi & [Hn | [_ Hs]])].
  - right. unfold interpret, unpack2 in Hi.
    destruct out as [| | s | l | l | l]; simpl in Hi; try discriminate;
      [destruct (str_chars s) as [|a [|b [|]]] | destruct l as [|a [|b [|]]]
      | destruct l as [|a [|b [|]]]]; congruence.
  - left. destruct r; simpl in Hn; try discriminate; injection Hn as <-; reflexivity.
  - left. unfold py_sorted in Hs.
    destruct (py_iter r) as [items|e'] eqn:Hit; simpl in Hs.
    + exact (sort_acc_exc_any _ _ _ Hs).
    + injection Hs as <-. destruct r; simpl in Hit; congruence.
Qed.

(** ** Checks on small inputs *)

Example parse_operators_mul_under_add :
  parse_operators [TAtom "1"; TOp "PLUS"; TAtom "2"; TOp "TIMES"; TAtom "3"] =
    Some (Bin "PLUS" (Leaf "1") (Bin "TIMES" (Leaf "2") (Leaf "3"))).
Proof. reflexivity. Qed.

Example parse_operators_sub_left :
  parse_operators [TAtom "a"; TOp "MINUS"; TAtom "b"; TOp "MINUS"; TAtom "c"] =
    Some (Bin "MINUS" (Bin "MINUS" (Leaf "a") (Leaf "b")) (Leaf "c")).
Proof. reflexivity. Qed.

Example Location_str_formats :
  Location_str (mkLocation "f.xsh" 12 (Some 0)) = "f.xsh:12:0" /\
  Location_str (mkLocation "f.xsh" 7 None) = "f.xsh:7".
Proof. split; reflexivity. Qed.

Example complete_spec_short_circuit :
  complete [("first", const_provider (Ok (VSet [VStr "foo"; VStr "bar"])));
            ("second", const_provider (Ok (VTuple [VSet [VStr "baz"]; VInt 7])))]
           "fo" "fo" 0 2 None =
    (Ok (VTuple [VStr "bar"; VStr "foo"], VInt 2), ["first"]).
Proof. reflexivity. Qed.

(** * Claims about [Completer.complete] *)

(** C1 (as corrected): when every provider before it yields an empty or
    absent result and a provider yields a non-empty collection of strings,
    [complete] returns that collection sorted, as a tuple that keeps its
    duplicates (a permutation of it), with that provider's replacement
    length, and invokes no later provider. *)
Theorem complete_first_nonempty_sorted (pre post : registry) (name : string)
    (func : provider) (prefix line : string) (begidx endidx : Z)
    (ctx : option (list string)) (lp0 : option pyval) (out r lp : pyval)
    (items : list pyval) :
  run_empty prefix line begidx endidx (ctx_or ctx) pre None = Some lp0 ->
  func prefix line begidx endidx (ctx_or ctx) = Ok out ->
  interpret prefix out = Ok (r, lp) ->
  py_iter r = Ok items -> items <> [] -> forallb is_str items = true ->
  exists l,
    complete (pre ++ (name, func) :: post) prefix line begidx endidx ctx =
      (Ok (VTuple l, lp), map fst pre ++ [name]) /\
    Permutation l items /\ Sorted str_le l.
Proof.
  intros. unfold complete. eapply complete_loop_nonempty_at; eauto.
Qed.

Lemma complete_first_nonempty_sorted_witness :
  exists l,
    complete ([("empty", const_provider (Ok (VTuple [VSet []; VInt 9])))] ++
              ("first", const_provider (Ok (VSet [VStr "foo"; VStr "bar"]))) ::
              [("second", const_provider (Ok (VSet [VStr "baz"])))])
             "fo" "fo" 0 2 None =
      (Ok (VTuple l, VInt 2), ["empty"; "first"]) /\
    Permutation l [VStr "foo"; VStr "bar"] /\ Sorted str_le l.
Proof.
  apply (complete_first_nonempty_sorted
           [("empty", const_provider (Ok (VTuple [VSet []; VInt 9])))]
           [("second", const_provider (Ok (VSet [VStr "baz"])))] "first"
           (const_provider (Ok (VSet [VStr "foo"; VStr "bar"])))
           "fo" "fo" 0 2 None (Some (VInt 9))
           (VSet [VStr "foo"; VStr "bar"]) (VSet [VStr "foo"; VStr "bar"]) (VInt 2)
           [VStr "foo"; VStr "bar"]);
    [reflexivity | reflexivity | reflexivity | reflexivity | discriminate | reflexivity].
Defined.

(** C1: a provider returning a list with a repeated candidate gets the
    repetition back: the candidates are sorted, not deduplicated. *)
Lemma complete_keeps_duplicates :
  complete [("dup", const_provider (Ok (VTuple [VList [VStr "a"; VStr "a"]; VInt 1])))]
           "a" "a" 0 1 None =
    (Ok (VTuple [VStr "a"; VStr "a"], VInt 1), ["dup"]) /\
  ~ NoDup [VStr "a"; VStr "a"].
Proof.
  split; [reflexivity|].
  intros H. inversion H as [|? ? Hnin _]. apply Hnin. left. reflexivity.
Qed.

(** C2: when every provider before it yields an empty or absent result
    and a provider raises StopIteration, [complete] returns an empty set
    with [len(prefix)], and invokes no later provider, whatever they are. *)
Theorem complete_abort_stops (pre post : registry) (name : string)
    (func : provider) (prefix line : string) (begidx endidx : Z)
    (ctx : option (list string)) (lp0 : option pyval) :
  run_empty prefix line begidx endidx (ctx_or ctx) pre None = Some lp0 ->
  func prefix line begidx endidx (ctx_or ctx) = Exc StopIteration ->
  complete (pre ++ (name, func) :: post) prefix line begidx endidx ctx =
    (Ok (VSet [], VInt (pylen prefix)), map fst pre ++ [name]).
Proof.
  intros Hpre Hf. unfold complete.
  rewrite (complete_loop_app _ _ _ _ _ _ _ _ _ Hpre). simpl. rewrite Hf.
  reflexivity.
Qed.

Lemma complete_abort_stops_witness :
  complete ([] ++ ("stop", const_provider (Exc StopIteration)) ::
            [("second", const_provider (Ok (VSet [VStr "baz"])))])
           "fo" "fo" 0 2 None =
    (Ok (VSet [], VInt (pylen "fo")), ["stop"]).
Proof.
  apply (complete_abort_stops [] [("second", const_provider (Ok (VSet [VStr "baz"])))]
           "stop" (const_provider (Exc StopIteration)) "fo" "fo" 0 2 None None);
    reflexivity.
Defined.

(** C3 (as corrected): on a non-empty registry, when every provider that
    [complete] consults raises StopIteration or returns a well-formed value,
    [complete] returns a result (later providers may be anything).  When the
    providers before it yield empty or absent results, an exception other
    than StopIteration raised by a provider propagates to the caller, and so
    does the error (a TypeError or a ValueError) raised while reading a
    malformed return value; no later provider is invoked. *)
Theorem complete_wellformed_returns (completers : registry) (prefix line : string)
    (begidx endidx : Z) (ctx : option (list string)) :
  (completers <> [] ->
   Forall (fun p => good_call (snd p prefix line begidx endidx (ctx_or ctx)) = true)
     (firstn (List.length (snd (complete completers prefix line begidx endidx ctx)))
        completers) ->
   exists r, fst (complete completers prefix line begidx endidx ctx) = Ok r) /\
  (forall pre name func post lp0,
     completers = pre ++ (name, func) :: post ->
     run_empty prefix line begidx endidx (ctx_or ctx) pre None = Some lp0 ->
     (forall ex, func prefix line begidx endidx (ctx_or ctx) = Exc ex ->
        ex <> StopIteration ->
        complete completers prefix line begidx endidx ctx =
          (Exc ex, map fst pre ++ [name])) /\
     (forall out e, func prefix line begidx endidx (ctx_or ctx) = Ok out ->
        read_error prefix out e ->
        complete completers prefix line begidx endidx ctx =
          (Exc e, map fst pre ++ [name]) /\ (e = TypeError \/ e = ValueError))).
Proof.
  split.
  - intros Hne Hall. unfold complete. apply complete_loop_good; auto.
  - intros pre name func post lp0 -> Hpre. unfold complete.
    rewrite (complete_loop_app prefix line begidx endidx (ctx_or ctx) pre _ None lp0 Hpre).
    split.
    + intros ex Hf Hex. simpl. rewrite Hf.
      destruct ex; try reflexivity. contradiction.
    + intros out e Hf Her. split; [|exact (read_error_kind _ _ _ Her)].
      simpl. rewrite Hf.
      destruct Her as [Hi | (r & lp & Hi & [Hn | [Hn Hs]])]; rewrite Hi;
        [reflexivity | rewrite Hn; reflexivity | rewrite Hn, Hs; reflexivity].
Qed.

(** The registry [[{'a'}, 5]]: only the first provider is consulted, so
    [complete] returns although the second one is malformed. *)
Lemma complete_wellformed_returns_witness :
  [("set", const_provider (Ok (VSet [VStr "a"]))); ("int", const_provider (Ok (VInt 5)))]
    <> [] /\
  Forall (fun p => good_call (snd p "a" "a" 0 1 (ctx_or None)) = true)
    (firstn (List.length (snd (complete
       [("set", const_provider (Ok (VSet [VStr "a"])));
        ("int", const_provider (Ok (VInt 5)))] "a" "a" 0 1 None)))
     [("set", const_provider (Ok (VSet [VStr "a"])));
      ("int", const_provider (Ok (VInt 5)))]) /\
  exists r,
    fst (complete [("set", const_provider (Ok (VSet [VStr "a"])));
                   ("int", const_provider (Ok (VInt 5)))]
                  "a" "a" 0 1 None) = Ok r.
Proof.
  assert (Hne : [("set", const_provider (Ok (VSet [VStr "a"])));
                 ("int", const_provider (Ok (VInt 5)))] <> []) by discriminate.
  assert (Hall : Forall (fun p => good_call (snd p "a" "a" 0 1 (ctx_or None)) = true)
    (firstn (List.length (snd (complete
       [("set", const_provider (Ok (VSet [VStr "a"])));
        ("int", const_provider (Ok (VInt 5)))] "a" "a" 0 1 None)))
     [("set", const_provider (Ok (VSet [VStr "a"])));
      ("int", const_provider (Ok (VInt 5)))])).
  { simpl. repeat constructor. }
  split; [exact Hne|]. split; [exact Hall|].
  exact (proj1 (complete_wellformed_returns
    [("set", const_provider (Ok (VSet [VStr "a"])));
     ("int", const_provider (Ok (VInt 5)))] "a" "a" 0 1 None) Hne Hall).
Defined.

(** C3: a provider raising an exception other than StopIteration makes
    [complete] raise it. *)
Lemma complete_raises_provider_error :
  complete [("boom", const_provider (Exc (OtherExc "KeyError")))] "a" "a" 0 1 None =
    (Exc (OtherExc "KeyError"), ["boom"]).
Proof. reflexivity. Qed.

(** C4: with no provider at all, the final [return set(), lprefix] reads
    an unbound [lprefix]: [complete] raises UnboundLocalError. *)
Theorem complete_empty_registry_unbound (prefix line : string) (begidx endidx : Z)
    (ctx : option (list string)) :
  complete [] prefix line begidx endidx ctx =
    (Exc (UnboundLocalError "lprefix"), []).
Proof. reflexivity. Qed.

(** With at least one provider, all yielding empty results, [complete]
    returns an empty set with the last provider's replacement length. *)
Lemma complete_all_empty_fallback (completers : registry) (prefix line : string)
    (begidx endidx : Z) (ctx : option (list string)) (lp : pyval) :
  run_empty prefix line begidx endidx (ctx_or ctx) completers None = Some (Some lp) ->
  complete completers prefix line begidx endidx ctx = (Ok (VSet [], lp), map fst completers).
Proof. intros H. unfold complete. apply complete_loop_all_empty; exact H. Qed.

(** C5 (as corrected): when every provider before it yields an empty or
    absent result, a provider's return value [out] is read as a pair
    (candidates [r], replacement length [lp]): if [out] is not a sequence
    (None, a set, a number, ...), [r] is [out] itself and [lp] is
    [len(prefix)]; if [out] is a sequence (a list, tuple or string) of two
    items, they are [r] and [lp]; a sequence of any other size raises
    ValueError.  Both are then used: an empty or absent [r] passes [lp] on
    to the next provider (and to the final [return set(), lprefix]), a
    non-empty [r] is returned sorted as a tuple next to [lp], and [len] of
    an unsized [r] raises. *)
Theorem complete_reads_provider_output (pre post : registry) (name : string)
    (func : provider) (prefix line : string) (begidx endidx : Z)
    (ctx : option (list string)) (lp0 : option pyval) (out : pyval) :
  run_empty prefix line begidx endidx (ctx_or ctx) pre None = Some lp0 ->
  func prefix line begidx endidx (ctx_or ctx) = Ok out ->
  (forall r lp,
     (is_sequence out = false /\ r = out /\ lp = VInt (pylen prefix)) \/
     (is_sequence out = true /\ py_iter out = Ok [r; lp]) ->
     (nonempty r = Ok false ->
        complete (pre ++ (name, func) :: post) prefix line begidx endidx ctx =
          let '(o, log) :=
            complete_loop prefix line begidx endidx (ctx_or ctx) post (Some lp) in
          (o, map fst pre ++ name :: log)) /\
     (nonempty r = Ok true ->
        complete (pre ++ (name, func) :: post) prefix line begidx endidx ctx =
          (l <- py_sorted r ;; Ok (VTuple l, lp), map fst pre ++ [name])) /\
     (forall e, nonempty r = Exc e ->
        complete (pre ++ (name, func) :: post) prefix line begidx endidx ctx =
          (Exc e, map fst pre ++ [name])) /\
     (forall items, py_iter r = Ok items -> items <> [] ->
        forallb is_str items = true ->
        exists l,
          complete (pre ++ (name, func) :: post) prefix line begidx endidx ctx =
            (Ok (VTuple l, lp), map fst pre ++ [name]) /\
          Permutation l items /\ Sorted str_le l)) /\
  (is_sequence out = true ->
   (forall xs, py_iter out = Ok xs -> List.length xs <> 2%nat) ->
   complete (pre ++ (name, func) :: post) prefix line begidx endidx ctx =
     (Exc ValueError, map fst pre ++ [name])).
Proof.
  intros Hpre Hf. split.
  - intros r lp Hsrc.
    assert (Hi : interpret prefix out = Ok (r, lp)).
    { destruct Hsrc as [(Hs & -> & ->) | (Hs & Hit)]; unfold interpret; rewrite Hs;
        [reflexivity | unfold unpack2; rewrite Hit; reflexivity]. }
    assert (Hstep : complete (pre ++ (name, func) :: post) prefix line begidx endidx ctx =
      let '(o, log) :=
        match nonempty r with
        | Exc e => (Exc e, [name])
        | Ok true => (l <- py_sorted r ;; Ok (VTuple l, lp), [name])
        | Ok false =>
            let '(o, log) :=
              complete_loop prefix line begidx endidx (ctx_or ctx) post (Some lp) in
            (o, name :: log)
        end in
      (o, map fst pre ++ log)).
    { unfold complete.
      rewrite (complete_loop_app prefix line begidx endidx (ctx_or ctx) pre _ None lp0 Hpre).
      simpl. rewrite Hf, Hi. reflexivity. }
    split; [|split; [|split]].
    + intros Hn. rewrite Hstep, Hn.
      destruct (complete_loop prefix line begidx endidx (ctx_or ctx) post (Some lp));
        reflexivity.
    + intros Hn. rewrite Hstep, Hn. reflexivity.
    + intros e Hn. rewrite Hstep, Hn. reflexivity.
    + intros items Hit Hne Hs.
      destruct (py_sorted_str r items Hit Hs) as (l & Hl & Hp & Hso).
      exists l. split; [|auto].
      rewrite Hstep, (nonempty_iter r items Hit).
      destruct items as [|x items]; [congruence|]. simpl. rewrite Hl. reflexivity.
  - intros Hseq Hlen. unfold complete.
    rewrite (complete_loop_app _ _ _ _ _ _ _ _ _ Hpre). simpl. rewrite Hf.
    unfold interpret, unpack2. rewrite Hseq.
    destruct out as [| | s | l | l | l]; try discriminate; simpl;
      [remember (str_chars s) as xs | remember l as xs | remember l as xs];
      (assert (Hl : List.length xs <> 2%nat)
         by (apply Hlen; simpl; congruence));
      destruct xs as [|x [|y [|z xs]]]; simpl in Hl; try reflexivity; lia.
Qed.

(** The registry [[([], 7), None]]: the pair is unpacked and its empty
    candidates pass 7 on; [None] is not a sequence, so it is read as absent
    candidates with [len(prefix)], which the final [return] reports. *)
Lemma complete_reads_provider_output_witness :
  run_empty "fo" "fo" 0 2 (ctx_or None)
    [("pair", const_provider (Ok (VTuple [VList []; VInt 7])))] None =
    Some (Some (VInt 7)) /\
  const_provider (Ok VNone) "fo" "fo" 0 2 (ctx_or None) = Ok VNone /\
  complete ([("pair", const_provider (Ok (VTuple [VList []; VInt 7])))] ++
            ("none", const_provider (Ok VNone)) :: [])
           "fo" "fo" 0 2 None =
    (Ok (VSet [], VInt 2), ["pair"; "none"]).
Proof.
  split; [reflexivity|]. split; [reflexivity|].
  destruct (complete_reads_provider_output
              [("pair", const_provider (Ok (VTuple [VList []; VInt 7])))] [] "none"
              (const_provider (Ok VNone)) "fo" "fo" 0 2 None (Some (VInt 7)) VNone
              eq_refl eq_refl) as [Huse _].
  destruct (Huse VNone (VInt (pylen "fo"))
              (or_introl (conj eq_refl (conj eq_refl eq_refl)))) as [Hempty _].
  rewrite (Hempty eq_refl). reflexivity.
Defined.

(** C5: a bare list of candidates is unpacked as a pair: its first string
    becomes the candidates (sorted into characters) and its second string
    the replacement length. *)
Lemma complete_unpacks_bare_list :
  complete [("bare", const_provider (Ok (VList [VStr "foo"; VStr "bar"])))]
           "fo" "fo" 0 2 None =
    (Ok (VTuple [VStr "f"; VStr "o"; VStr "o"], VStr "bar"), ["bare"]) /\
  VStr "bar" <> VInt (pylen "fo").
Proof. split; [reflexivity | discriminate]. Qed.

(** C10: when every provider before it yields an empty or absent result
    and a provider raises an exception other than StopIteration, [complete]
    raises that same exception and invokes no later provider. *)
Theorem complete_propagates_exception (pre post : registry) (name : string)
    (func : provider) (prefix line : string) (begidx endidx : Z)
    (ctx : option (list string)) (lp0 : option pyval) (ex : exn) :
  run_empty prefix line begidx endidx (ctx_or ctx) pre None = Some lp0 ->
  func prefix line begidx endidx (ctx_or ctx) = Exc ex ->
  ex <> StopIteration ->
  complete (pre ++ (name, func) :: post) prefix line begidx endidx ctx =
    (Exc ex, map fst pre ++ [name]).
Proof.
  intros Hpre Hf Hex. unfold complete.
  rewrite (complete_loop_app _ _ _ _ _ _ _ _ _ Hpre). simpl. rewrite Hf.
  destruct ex; try reflexivity. contradiction.
Qed.

Lemma complete_propagates_exception_witness :
  complete ([("empty", const_provider (Ok VNone))] ++
            ("boom", const_provider (Exc (OtherExc "KeyError"))) ::
            [("later", const_provider (Ok (VSet [VStr "x"])))])
           "fo" "fo" 0 2 None =
    (Exc (OtherExc "KeyError"), ["empty"; "boom"]).
Proof.
  apply (complete_propagates_exception [("empty", const_provider (Ok VNone))]
           [("later", const_provider (Ok (VSet [VStr "x"])))] "boom"
           (const_provider (Exc (OtherExc "KeyError"))) "fo" "fo" 0 2 None
           (Some (VInt 2)) (OtherExc "KeyError"));
    [reflexivity | reflexivity | discriminate].
Defined.

(** * Claims about the parser *)

(** C6: [Location(fname, lineno, column)] raises NameError on every
    input: its body reads the unbound name [line]. *)
Theorem Location_init_raises (f : string) (n : Z) (c : option Z) :
  Location_init f n c = Exc (NameError "line").
Proof. reflexivity. Qed.

(** C7: on a token, [p_error] raises NameError (or AttributeError when
    the lexer has no [fname]) while building the location, never a
    SyntaxError, and so does the lexer's error callback; at the end of the
    input it raises the SyntaxError ": no further code". *)
Theorem parse_errors_not_syntax_errors (lx : lexer) (tok : token)
    (msg : string) (line column : Z) :
  let failure := match lexer_fname lx with
                 | Some _ => NameError "line"
                 | None => AttributeError "fname"
                 end in
  p_error lx (Some tok) = Exc failure /\
  _lexer_errfunc lx msg line column = Exc failure /\
  p_error lx None = Exc (SyntaxError ": no further code").
Proof.
  unfold p_error, _lexer_errfunc, currloc, get_fname.
  destruct (lexer_fname lx); simpl; repeat split.
Qed.

(** C8: the scope stack a first [parse] call leaves behind has no effect on
    a second call on the same object, and the grammar engine of the second
    call starts from a single empty scope, the given file name and line 0. *)
Theorem parse_scope_stack_isolated (P : Parser) (s1 f1 : string) (d1 : Z)
    (s2 f2 : string) (d2 : Z) (sc : list (list (string * bool))) :
  let P1 := fst (parse P s1 f1 d1) in
  parse (with_scope_stack P1 sc) s2 f2 d2 = parse P1 s2 f2 d2 /\
  (forall eng, cparser P1 = Some eng ->
     exists st, snd (parse P1 s2 f2 d2) = snd (eng st s2 d2) /\
       scope_stack st = [[]] /\ lexer_filename st = f2 /\ lexer_lineno st = 0).
Proof.
  intros P1. split.
  - unfold parse, with_scope_stack, parse_reset. simpl. reflexivity.
  - intros eng Heng. exists (parse_reset (pst P1) f2). repeat split.
    unfold parse. rewrite Heng. destruct (eng _ s2 d2). reflexivity.
Qed.

(** C9: over the binary operator productions with the source's
    precedence table, every operator expression the engine accepts yields a
    tree of its tokens in which a higher-level operator binds more tightly
    and operators of one (left-associative) entry group to the left. *)
Theorem parse_operators_grouping (toks : list tok) (t : tree) :
  forallb in_table toks = true ->
  parse_operators toks = Some t ->
  prec_ok t /\ flatten t = toks.
Proof.
  intros Hin Hp. destruct toks as [|[a|o] rest]; try discriminate.
  simpl in Hin, Hp.
  exact (shift_reduce_ok (List.length rest) rest [] a t (le_n _) Hin I Hp).
Qed.

Lemma parse_operators_grouping_witness :
  prec_ok (Bin "PLUS" (Leaf "1") (Bin "TIMES" (Leaf "2") (Leaf "3"))) /\
  flatten (Bin "PLUS" (Leaf "1") (Bin "TIMES" (Leaf "2") (Leaf "3"))) =
    [TAtom "1"; TOp "PLUS"; TAtom "2"; TOp "TIMES"; TAtom "3"].
Proof.
  apply (parse_operators_grouping
           [TAtom "1"; TOp "PLUS"; TAtom "2"; TOp "TIMES"; TAtom "3"]);
    reflexivity.
Defined.

(** * Further properties of the code *)

(** ** Lemmas on decimal rendering *)

Lemma digit_char_val (d : N) :
  (d < 10)%N -> (Ascii.N_of_ascii (Ascii.ascii_of_N (48 + d)) - 48 = d)%N.
Proof.
  intros Hd. rewrite Ascii.N_ascii_embedding by lia. lia.
Qed.

Lemma digit_char_not_colon (d : N) :
  (d < 10)%N -> Ascii.eqb (Ascii.ascii_of_N (48 + d)) ":" = false.
Proof.
  intros Hd. destruct (Ascii.eqb _ _) eqn:H; [|reflexivity].
  apply Ascii.eqb_eq in H.
  apply (f_equal Ascii.N_of_ascii) in H.
  rewrite Ascii.N_ascii_embedding in H by lia.
  change (Ascii.N_of_ascii ":") with 58%N in H. lia.
Qed.

Lemma n_digits_S (f : nat) (n : N) (acc : string) :
  n_digits (S f) n acc =
  if N.eqb (N.div n 10) 0 then String (Ascii.ascii_of_N (48 + N.modulo n 10)) acc
  else n_digits f (N.div n 10) (String (Ascii.ascii_of_N (48 + N.modulo n 10)) acc).
Proof. reflexivity. Qed.

Lemma n_digits_val (f : nat) (n : N) (acc : string) :
  (n < 2 ^ N.of_nat f)%N ->
  dec_val (n_digits (S f) n acc) 0 = dec_val acc n.
Proof.
  revert n acc. induction f as [|f IH]; intros n acc Hn.
  - simpl in Hn. assert (n = 0%N) by lia. subst. reflexivity.
  - rewrite n_digits_S.
    pose proof (N.mod_lt n 10 ltac:(lia)) as Hm.
    pose proof (N.div_mod n 10 ltac:(lia)) as Hdm.
    destruct (N.eqb (N.div n 10) 0) eqn:Hq.
    + apply N.eqb_eq in Hq. cbn [dec_val]. rewrite digit_char_val by lia.
      f_equal. lia.
    + apply N.eqb_neq in Hq.
      assert (Hlt : (N.div n 10 < 2 ^ N.of_nat f)%N).
      { rewrite Nat2N.inj_succ, N.pow_succ_r' in Hn.
        assert (N.div n 10 <= N.div n 2)%N.
        { apply N.div_le_compat_l. lia. }
        assert (2 * N.div n 2 <= n)%N by (apply N.Div0.mul_div_le; lia).
        lia. }
      rewrite (IH (N.div n 10) _ Hlt). cbn [dec_val].
      rewrite digit_char_val by lia. f_equal. lia.
Qed.

Lemma n_digits_no_colon (f : nat) (n : N) (acc : string) :
  no_colon acc = true -> no_colon (n_digits f n acc) = true.
Proof.
  revert n acc. induction f as [|f IH]; intros n acc Hacc; [exact Hacc|].
  rewrite n_digits_S.
  assert (Hc : no_colon (String (Ascii.ascii_of_N (48 + N.modulo n 10)) acc) = true).
  { cbn [no_colon]. rewrite digit_char_not_colon by (apply N.mod_lt; lia). exact Hacc. }
  destruct (N.eqb (N.div n 10) 0); auto.
Qed.

Lemma pos_lt_size_nat (p : positive) :
  (Npos p < 2 ^ N.of_nat (Pos.size_nat p))%N.
Proof.
  induction p as [p IH|p IH|]; simpl Pos.size_nat;
    rewrite ?Nat2N.inj_succ, ?N.pow_succ_r'.
  - change (Npos p~1) with (2 * Npos p + 1)%N. lia.
  - change (Npos p~0) with (2 * Npos p)%N. lia.
  - simpl. lia.
Qed.

Lemma z_str_val (z : Z) :
  0 <= z -> dec_val (z_str z) 0 = Z.to_N z.
Proof.
  intros Hz. unfold z_str.
  replace (Z.ltb z 0) with false by (symmetry; apply Z.ltb_ge; lia).
  rewrite Z.abs_eq by lia.
  rewrite n_digits_val; [reflexivity|].
  destruct (Z.to_N z) as [|p]; [simpl; lia|]. apply pos_lt_size_nat.
Qed.

Lemma z_str_no_colon (z : Z) : no_colon (z_str z) = true.
Proof.
  unfold z_str.
  generalize (n_digits_no_colon (S (N.size_nat (Z.to_N (Z.abs z))))
    (Z.to_N (Z.abs z)) EmptyString eq_refl).
  generalize (n_digits (S (N.size_nat (Z.to_N (Z.abs z)))) (Z.to_N (Z.abs z)) EmptyString).
  intros ds H. destruct (Z.ltb z 0); [|exact H].
  cbn [String.append no_colon]. rewrite H. reflexivity.
Qed.

Lemma split_last_colon (s1 s2 d1 d2 : string) :
  no_colon d1 = true -> no_colon d2 = true ->
  String.append s1 (String.append ":" d1) = String.append s2 (String.append ":" d2) ->
  s1 = s2 /\ d1 = d2.
Proof.
  revert s2. induction s1 as [|c1 s1 IH]; intros s2 H1 H2 H;
    destruct s2 as [|c2 s2]; simpl in H.
  - injection H as ->. auto.
  - injection H as <- Hd. subst d1.
    clear -H1. exfalso. induction s2 as [|c s2 IHs]; simpl in H1;
      [discriminate|]. apply andb_prop in H1 as [_ H1]. auto.
  - injection H as -> Hd. subst d2.
    clear -H2. exfalso. induction s1 as [|c s1 IHs]; simpl in H2;
      [discriminate|]. apply andb_prop in H2 as [_ H2]. auto.
  - injection H as -> H. destruct (IH s2 H1 H2 H) as [-> ->]. auto.
Qed.

Lemma z_str_inj (a b : Z) : 0 <= a -> 0 <= b -> z_str a = z_str b -> a = b.
Proof.
  intros Ha Hb H. apply (f_equal (fun s => dec_val s 0)) in H.
  rewrite !z_str_val in H by assumption. lia.
Qed.

(** [Location.__str__] can be read back: two locations with non-negative
    line and column, both with or both without a column, that format to the
    same text are the same location (the file name may contain colons). *)
Theorem Location_str_injective (f f' : string) (n n' : Z) (c c' : option Z) :
  0 <= n -> 0 <= n' ->
  match c with Some x => 0 <= x | None => True end ->
  match c' with Some x => 0 <= x | None => True end ->
  (c = None <-> c' = None) ->
  Location_str (mkLocation f n c) = Location_str (mkLocation f' n' c') ->
  f = f' /\ n = n' /\ c = c'.
Proof.
  intros Hn Hn' Hc Hc' Hnone H. unfold Location_str in H. simpl in H.
  destruct c as [x|], c' as [x'|].
  - destruct (split_last_colon _ _ _ _ (z_str_no_colon x) (z_str_no_colon x') H)
      as [H1 H2].
    destruct (split_last_colon _ _ _ _ (z_str_no_colon n) (z_str_no_colon n') H1)
      as [-> H3].
    apply z_str_inj in H2; [|assumption..]. apply z_str_inj in H3; [|assumption..].
    subst. auto.
  - destruct Hnone as [_ Hx]. discriminate (Hx eq_refl).
  - destruct Hnone as [Hx _]. discriminate (Hx eq_refl).
  - destruct (split_last_colon _ _ _ _ (z_str_no_colon n) (z_str_no_colon n') H)
      as [-> H3].
    apply z_str_inj in H3; [|assumption..]. subst. auto.
Qed.

Lemma Location_str_injective_witness :
  "a:b" = "a:b" /\ 12 = 12 /\ Some 4 = Some 4.
Proof.
  apply (Location_str_injective "a:b" "a:b" 12 12 (Some 4) (Some 4));
    [lia | lia | simpl; lia | simpl; lia | split; discriminate | reflexivity].
Defined.

(** ** [Parser.__init__] and [Parser.parse] *)

Lemma parse_fresh_inv (calls : list (string * string * Z)) (P : Parser)
    (eng : engine) (last : option token) :
  parser_engine P = eng -> cparser P = None -> lexer_last (pst P) = last ->
  let P' := fold_left (fun P c => let '(s, f, d) := c in fst (parse P s f d)) calls P in
  parser_engine P' = eng /\ cparser P' = None /\ lexer_last (pst P') = last.
Proof.
  revert P. induction calls as [|[[s f] d] calls IH]; intros P He Hc Hl; simpl.
  - auto.
  - apply IH; destruct P as [st e c]; simpl in *; subst c; simpl; auto.
Qed.

(** [__init__] never sets [cparser]: on a freshly constructed [Parser],
    after any sequence of earlier [parse] calls, [parse] raises
    AttributeError on [cparser], after resetting the lexer's file name and
    line number, the scope stack and the last yielded token; the engine
    [yacc.yacc] built and the lexer's last token are untouched. *)
Theorem parse_fresh_parser_raises (filename : string) (lineno : Z)
    (last : option token) (eng : engine) (calls : list (string * string * Z))
    (s f : string) (d : Z) :
  let P := fold_left (fun P c => let '(s, f, d) := c in fst (parse P s f d)) calls
             (Parser_init filename lineno last eng) in
  parse P s f d =
    (mkParser (mkPstate f 0 last [[]] None) eng None, Exc (AttributeError "cparser")).
Proof.
  destruct (parse_fresh_inv calls (Parser_init filename lineno last eng) eng last
              eq_refl eq_refl eq_refl) as (He & Hc & Hl).
  simpl. revert He Hc Hl.
  generalize (fold_left (fun P c => let '(s, f, d) := c in fst (parse P s f d)) calls
                (Parser_init filename lineno last eng)).
  intros [st e c] He Hc Hl; simpl in *. subst. reflexivity.
Qed.

(** ** Further lemmas on [Completer.complete] *)

Lemma sort_insert_length (x : pyval) (l r : list pyval) :
  sort_insert x l = Ok r -> List.length r = S (List.length l).
Proof.
  revert r. induction l as [|y l IH]; intros r H; simpl in H.
  - injection H as <-. reflexivity.
  - destruct (py_lt x y) as [[|]|e]; simpl in H; try discriminate.
    + injection H as <-. reflexivity.
    + destruct (sort_insert x l) as [r'|e] eqn:Hr; simpl in H; try discriminate.
      injection H as <-. simpl. rewrite (IH r' eq_refl). reflexivity.
Qed.

Lemma sort_acc_length (acc l r : list pyval) :
  sort_acc acc l = Ok r -> List.length r = (List.length acc + List.length l)%nat.
Proof.
  revert acc. induction l as [|x l IH]; intros acc H; simpl in H.
  - injection H as <-. simpl. lia.
  - destruct (sort_insert x acc) as [acc'|e] eqn:Hi; simpl in H; try discriminate.
    rewrite (IH _ H), (sort_insert_length _ _ _ Hi). simpl. lia.
Qed.

Lemma nonempty_true_iter (r : pyval) :
  nonempty r = Ok true -> exists items, py_iter r = Ok items /\ items <> [].
Proof.
  intros H. destruct r as [| z | s | l | l | l]; simpl in H; try discriminate.
  - exists (str_chars s). split; [reflexivity|].
    intros He. apply (f_equal (@List.length pyval)) in He.
    rewrite str_chars_length in He. simpl in He. rewrite He in H. discriminate.
  - exists l. split; [reflexivity|]. intros ->. discriminate.
  - exists l. split; [reflexivity|]. intros ->. discriminate.
  - exists l. split; [reflexivity|]. intros ->. discriminate.
Qed.

Lemma py_sorted_nonempty (r : pyval) (l : list pyval) :
  nonempty r = Ok true -> py_sorted r = Ok l -> l <> [].
Proof.
  intros Hn Hs. destruct (nonempty_true_iter r Hn) as (items & Hit & Hne).
  unfold py_sorted in Hs. rewrite Hit in Hs. simpl in Hs.
  apply sort_acc_length in Hs. intros ->. destruct items; [congruence|].
  simpl in Hs. discriminate.
Qed.

Section Loop_more.
Variables (prefix line : string) (begidx endidx : Z) (ctx : list string).

Lemma complete_loop_decided_app (reg extra : registry) (lp : option pyval) :
  run_empty prefix line begidx endidx ctx reg lp = None ->
  complete_loop prefix line begidx endidx ctx (reg ++ extra) lp =
    complete_loop prefix line begidx endidx ctx reg lp.
Proof.
  revert lp. induction reg as [|[name func] reg IH]; intros lp H; simpl in *.
  - discriminate.
  - unfold yields_empty in H.
    destruct (func prefix line begidx endidx ctx) as [out|[]]; try reflexivity.
    destruct (interpret prefix out) as [[r lp1]|e]; try reflexivity.
    destruct (nonempty r) as [[|]|e]; try reflexivity.
    rewrite (IH _ H). reflexivity.
Qed.

Lemma complete_loop_log_prefix (reg : registry) (lp : option pyval) :
  exists k, snd (complete_loop prefix line begidx endidx ctx reg lp) =
              firstn k (map fst reg) /\ (reg <> [] -> (0 < k)%nat).
Proof.
  revert lp. induction reg as [|[name func] reg IH]; intros lp; simpl.
  - exists O. split; [reflexivity | congruence].
  - destruct (func prefix line begidx endidx ctx) as [out|[]];
      try (exists 1%nat; split; [reflexivity | lia]).
    destruct (interpret prefix out) as [[r lp1]|e];
      try (exists 1%nat; split; [reflexivity | lia]).
    destruct (nonempty r) as [[|]|e];
      try (exists 1%nat; split; [reflexivity | lia]).
    destruct (IH (Some lp1)) as (k & Hk & _).
    destruct (complete_loop prefix line begidx endidx ctx reg (Some lp1)) as [o log].
    simpl in *. exists (S k). split; [now rewrite Hk | lia].
Qed.

Lemma complete_loop_shape (reg : registry) (lp : option pyval) (r lp' : pyval) :
  fst (complete_loop prefix line begidx endidx ctx reg lp) = Ok (r, lp') ->
  r = VSet [] \/ exists l, r = VTuple l /\ l <> [].
Proof.
  revert lp. induction reg as [|[name func] reg IH]; intros lp H; simpl in H.
  - destruct lp; simpl in H; try discriminate. injection H as <- _. auto.
  - destruct (func prefix line begidx endidx ctx) as [out|[]]; simpl in H;
      try discriminate; [| injection H as <- _; auto].
    destruct (interpret prefix out) as [[r1 lp1]|e]; simpl in H; try discriminate.
    destruct (nonempty r1) as [[|]|e] eqn:Hn; simpl in H; try discriminate.
    + destruct (py_sorted r1) as [l|e] eqn:Hs; simpl in H; try discriminate.
      injection H as <- _. right. exists l. split; [reflexivity|].
      exact (py_sorted_nonempty _ _ Hn Hs).
    + apply (IH (Some lp1)).
      destruct (complete_loop prefix line begidx endidx ctx reg (Some lp1)).
      exact H.
Qed.

End Loop_more.

(** *** Sorting strings and integers together *)

Lemma py_lt_str_or_int (x y : pyval) :
  str_or_int x = true -> str_or_int y = true ->
  match py_lt x y with
  | Ok _ => is_str x = is_str y
  | Exc e => e = TypeError
  end.
Proof.
  intros Hx Hy.
  destruct x as [| a | a | l | l | l]; try discriminate;
    destruct y as [| b | b | l' | l' | l']; try discriminate; reflexivity.
Qed.

Lemma sort_insert_perm (x : pyval) (l r : list pyval) :
  sort_insert x l = Ok r -> Permutation r (x :: l).
Proof.
  revert r. induction l as [|y l IH]; intros r H; simpl in H.
  - injection H as <-. reflexivity.
  - destruct (py_lt x y) as [[|]|e]; simpl in H; try discriminate.
    + injection H as <-. reflexivity.
    + destruct (sort_insert x l) as [r'|e] eqn:Hr; simpl in H; try discriminate.
      injection H as <-. rewrite (IH r' eq_refl). apply perm_swap.
Qed.

Lemma sort_insert_exc (x : pyval) (l : list pyval) (e : exn) :
  forallb str_or_int (x :: l) = true -> sort_insert x l = Exc e -> e = TypeError.
Proof.
  induction l as [|y l IH]; intros Hall H; simpl in H; try discriminate.
  simpl in Hall. apply andb_prop in Hall as [Hx Hall].
  apply andb_prop in Hall as [Hy Hl].
  pose proof (py_lt_str_or_int x y Hx Hy) as Hk.
  destruct (py_lt x y) as [[|]|e']; simpl in H.
  - discriminate.
  - destruct (sort_insert x l) as [r'|e'] eqn:Hr; simpl in H; [discriminate|].
    injection H as <-. apply IH; [simpl; rewrite Hx, Hl; reflexivity | reflexivity].
  - injection H as <-. exact Hk.
Qed.

Lemma sort_acc_exc (acc l : list pyval) (e : exn) :
  forallb str_or_int (acc ++ l) = true -> sort_acc acc l = Exc e -> e = TypeError.
Proof.
  revert acc. induction l as [|x l IH]; intros acc Hall H; simpl in H; try discriminate.
  rewrite forallb_app in Hall. apply andb_prop in Hall as [Ha Hxl].
  simpl in Hxl. apply andb_prop in Hxl as [Hx Hl].
  destruct (sort_insert x acc) as [acc'|e'] eqn:Hi; simpl in H.
  - apply (IH acc'); [|exact H].
    rewrite forallb_app, Hl, andb_true_r, forallb_forall. intros v Hv.
    apply (Permutation_in _ (sort_insert_perm _ _ _ Hi)) in Hv.
    destruct Hv as [<-|Hv]; [exact Hx|]. rewrite forallb_forall in Ha. auto.
  - injection H as <-. apply (sort_insert_exc x acc); [|exact Hi].
    simpl. rewrite Hx, Ha. reflexivity.
Qed.

Lemma uniform_perm (l l' : list pyval) : Permutation l l' -> uniform l -> uniform l'.
Proof.
  intros Hp Hu x y Hx Hy. apply Hu; apply (Permutation_in _ (Permutation_sym Hp)); auto.
Qed.

Lemma sort_acc_uniform (acc l r : list pyval) :
  forallb str_or_int (acc ++ l) = true -> uniform acc ->
  sort_acc acc l = Ok r -> uniform (acc ++ l).
Proof.
  revert acc. induction l as [|x l IH]; intros acc Hall Hu H; simpl in H.
  - rewrite app_nil_r. exact Hu.
  - rewrite forallb_app in Hall. apply andb_prop in Hall as [Ha Hxl].
    simpl in Hxl. apply andb_prop in Hxl as [Hx Hl].
    destruct (sort_insert x acc) as [acc'|e] eqn:Hi; simpl in H; [|discriminate].
    pose proof (sort_insert_perm _ _ _ Hi) as Hp.
    assert (Hxa : uniform (x :: acc)).
    { destruct acc as [|y acc].
      - intros a b [<-|[]] [<-|[]]. reflexivity.
      - simpl in Hi, Ha. apply andb_prop in Ha as [Hy _].
        pose proof (py_lt_str_or_int x y Hx Hy) as Hk.
        destruct (py_lt x y) as [b|e]; simpl in Hi; [|discriminate].
        intros a c Ha' Hc'.
        assert (Hxy : forall v, In v (x :: y :: acc) -> is_str v = is_str y).
        { intros v [<-|Hv]; [exact Hk|]. apply Hu; simpl; auto. }
        rewrite (Hxy a Ha'), (Hxy c Hc'). reflexivity. }
    assert (Hu' : uniform acc') by exact (uniform_perm _ _ (Permutation_sym Hp) Hxa).
    assert (Hall' : forallb str_or_int (acc' ++ l) = true).
    { rewrite forallb_app, Hl, andb_true_r, forallb_forall. intros v Hv.
      apply (Permutation_in _ Hp) in Hv.
      destruct Hv as [<-|Hv]; [exact Hx|]. rewrite forallb_forall in Ha. auto. }
    apply (uniform_perm (acc' ++ l)); [|exact (IH acc' Hall' Hu' H)].
    rewrite Hp. apply Permutation_middle.
Qed.

Lemma sort_acc_mixed (items : list pyval) (s : string) (z : Z) :
  forallb str_or_int items = true -> In (VStr s) items -> In (VInt z) items ->
  sort_acc [] items = Exc TypeError.
Proof.
  intros Hall Hs Hz. destruct (sort_acc [] items) as [r|e] eqn:H.
  - exfalso. assert (Hu : uniform ([] ++ items)).
    { apply (sort_acc_uniform [] items r Hall); [|exact H].
      intros a b []. }
    simpl in Hu. specialize (Hu _ _ Hs Hz). discriminate.
  - rewrite (sort_acc_exc [] items e Hall H). reflexivity.
Qed.

(** ** Further properties of [Completer.complete] *)

(** X1: with at least one provider, all of them yielding an empty or absent
    result, [complete] calls every provider and returns an empty set with
    the last provider's replacement length. *)
Lemma complete_all_empty_fallback_witness :
  run_empty "ab" "x ab" 2 4 (ctx_or None)
    [("none", const_provider (Ok VNone)); ("pair", const_provider (Ok (VTuple [VList []; VInt 7])))]
    None = Some (Some (VInt 7)) /\
  complete [("none", const_provider (Ok VNone)); ("pair", const_provider (Ok (VTuple [VList []; VInt 7])))]
    "ab" "x ab" 2 4 None = (Ok (VSet [], VInt 7), ["none"; "pair"]).
Proof.
  split; [reflexivity|].
  apply (complete_all_empty_fallback
    [("none", const_provider (Ok VNone)); ("pair", const_provider (Ok (VTuple [VList []; VInt 7])))]
    "ab" "x ab" 2 4 None (VInt 7)).
  reflexivity.
Defined.

(** Once a provider of the registry decides the outcome (returns candidates,
    raises, or returns something unreadable), the providers after it are
    never consulted: appending providers to such a registry does not change
    the result or the calls made. *)
Theorem complete_decided_ignores_rest (reg extra : registry) (prefix line : string)
    (begidx endidx : Z) (ctx : option (list string)) :
  run_empty prefix line begidx endidx (ctx_or ctx) reg None = None ->
  complete (reg ++ extra) prefix line begidx endidx ctx =
    complete reg prefix line begidx endidx ctx.
Proof. intros H. unfold complete. apply complete_loop_decided_app. exact H. Qed.

Lemma complete_decided_ignores_rest_witness :
  run_empty "ab" "x ab" 2 4 (ctx_or None)
    [("stop", const_provider (Exc StopIteration))] None = None /\
  complete ([("stop", const_provider (Exc StopIteration))] ++
            [("more", const_provider (Ok (VSet [VStr "abc"])))]) "ab" "x ab" 2 4 None =
    complete [("stop", const_provider (Exc StopIteration))] "ab" "x ab" 2 4 None.
Proof.
  split; [reflexivity|].
  apply complete_decided_ignores_rest. reflexivity.
Defined.

(** The providers [complete] invokes are always a prefix of the registry, in
    registry order, and with a non-empty registry at least the first one is
    invoked. *)
Theorem complete_log_is_prefix (reg : registry) (prefix line : string)
    (begidx endidx : Z) (ctx : option (list string)) :
  exists k, snd (complete reg prefix line begidx endidx ctx) = firstn k (map fst reg) /\
    (reg <> [] -> (0 < k)%nat).
Proof. unfold complete. apply complete_loop_log_prefix. Qed.

(** When [complete] returns, its candidates are either the empty set or a
    non-empty tuple. *)
Theorem complete_result_shape (reg : registry) (prefix line : string)
    (begidx endidx : Z) (ctx : option (list string)) (r lp : pyval) :
  fst (complete reg prefix line begidx endidx ctx) = Ok (r, lp) ->
  r = VSet [] \/ exists l, r = VTuple l /\ l <> [].
Proof. unfold complete. apply complete_loop_shape. Qed.

Lemma complete_result_shape_witness :
  fst (complete [("pair", const_provider (Ok (VList [VStr "ba"; VInt 2])))]
         "b" "b" 0 1 None) = Ok (VTuple [VStr "a"; VStr "b"], VInt 2) /\
  (VTuple [VStr "a"; VStr "b"] = VSet [] \/
   exists l, VTuple [VStr "a"; VStr "b"] = VTuple l /\ l <> []).
Proof.
  split; [reflexivity|].
  apply (complete_result_shape [("pair", const_provider (Ok (VList [VStr "ba"; VInt 2])))]
           "b" "b" 0 1 None (VTuple [VStr "a"; VStr "b"]) (VInt 2)).
  reflexivity.
Defined.

(** When the first provider that does not yield an empty result hands back
    an integer as its candidates, [len] of it raises TypeError and
    [complete] propagates it. *)
Theorem complete_unsized_candidates_raise (pre post : registry) (name : string)
    (func : provider) (prefix line : string) (begidx endidx : Z)
    (ctx : option (list string)) (lp0 : option pyval) (out : pyval) (z : Z) (lp : pyval) :
  run_empty prefix line begidx endidx (ctx_or ctx) pre None = Some lp0 ->
  func prefix line begidx endidx (ctx_or ctx) = Ok out ->
  interpret prefix out = Ok (VInt z, lp) ->
  complete (pre ++ (name, func) :: post) prefix line begidx endidx ctx =
    (Exc TypeError, map fst pre ++ [name]).
Proof.
  intros Hpre Hf Hi. unfold complete.
  rewrite (complete_loop_app prefix line begidx endidx (ctx_or ctx) pre _ None lp0 Hpre).
  simpl. rewrite Hf, Hi. reflexivity.
Qed.

Lemma complete_unsized_candidates_raise_witness :
  run_empty "ab" "x ab" 2 4 (ctx_or None) [("none", const_provider (Ok VNone))] None =
    Some (Some (VInt 2)) /\
  const_provider (Ok (VInt 5)) "ab" "x ab" 2 4 (ctx_or None) = Ok (VInt 5) /\
  interpret "ab" (VInt 5) = Ok (VInt 5, VInt 2) /\
  complete ([("none", const_provider (Ok VNone))] ++
            [("int", const_provider (Ok (VInt 5))); ("later", const_provider (Ok VNone))])
    "ab" "x ab" 2 4 None = (Exc TypeError, ["none"; "int"]).
Proof.
  split; [reflexivity|]. split; [reflexivity|]. split; [reflexivity|].
  apply (complete_unsized_candidates_raise [("none", const_provider (Ok VNone))]
           [("later", const_provider (Ok VNone))] "int" (const_provider (Ok (VInt 5)))
           "ab" "x ab" 2 4 None (Some (VInt 2)) (VInt 5) 5 (VInt 2));
    reflexivity.
Defined.

(** When the first provider that does not yield an empty result hands back
    candidates that mix strings and integers, [sorted] cannot compare them:
    [complete] raises TypeError. *)
Theorem complete_mixed_candidates_raise (pre post : registry) (name : string)
    (func : provider) (prefix line : string) (begidx endidx : Z)
    (ctx : option (list string)) (lp0 : option pyval) (out r lp : pyval)
    (items : list pyval) (s : string) (z : Z) :
  run_empty prefix line begidx endidx (ctx_or ctx) pre None = Some lp0 ->
  func prefix line begidx endidx (ctx_or ctx) = Ok out ->
  interpret prefix out = Ok (r, lp) ->
  py_iter r = Ok items -> forallb str_or_int items = true ->
  In (VStr s) items -> In (VInt z) items ->
  complete (pre ++ (name, func) :: post) prefix line begidx endidx ctx =
    (Exc TypeError, map fst pre ++ [name]).
Proof.
  intros Hpre Hf Hi Hit Hall Hs Hz. unfold complete.
  rewrite (complete_loop_app prefix line begidx endidx (ctx_or ctx) pre _ None lp0 Hpre).
  simpl. rewrite Hf, Hi, (nonempty_iter r items Hit).
  assert (Hne : Nat.eqb (List.length items) 0 = false)
    by (destruct items; [destruct Hs | reflexivity]).
  rewrite Hne. simpl. unfold py_sorted. rewrite Hit. simpl.
  rewrite (sort_acc_mixed items s z Hall Hs Hz). reflexivity.
Qed.

Lemma complete_mixed_candidates_raise_witness :
  run_empty "" "" 0 0 (ctx_or None) [] None = Some None /\
  const_provider (Ok (VSet [VStr "a"; VInt 1])) "" "" 0 0 (ctx_or None) =
    Ok (VSet [VStr "a"; VInt 1]) /\
  interpret "" (VSet [VStr "a"; VInt 1]) = Ok (VSet [VStr "a"; VInt 1], VInt 0) /\
  py_iter (VSet [VStr "a"; VInt 1]) = Ok [VStr "a"; VInt 1] /\
  forallb str_or_int [VStr "a"; VInt 1] = true /\
  In (VStr "a") [VStr "a"; VInt 1] /\ In (VInt 1) [VStr "a"; VInt 1] /\
  complete ([] ++ [("mixed", const_provider (Ok (VSet [VStr "a"; VInt 1])))])
    "" "" 0 0 None = (Exc TypeError, ["mixed"]).
Proof.
  split; [reflexivity|]. split; [reflexivity|]. split; [reflexivity|].
  split; [reflexivity|]. split; [reflexivity|].
  split; [simpl; auto|]. split; [simpl; auto|].
  apply (complete_mixed_candidates_raise [] [] "mixed"
           (const_provider (Ok (VSet [VStr "a"; VInt 1]))) "" "" 0 0 None None
           (VSet [VStr "a"; VInt 1]) (VSet [VStr "a"; VInt 1]) (VInt 0)
           [VStr "a"; VInt 1] "a" 1); simpl; auto.
Defined.
